(** * Verification of the event check-in service (src/api/server.js)

    Shallow embedding of the Express handlers of [server.js].  The global
    [events] array is a constant list of event records; each event's
    [attendees] field is a reference to an array living in a heap, so that
    the temporaries the attendee-list handler allocates ([slice], [filter],
    the in-place [sort]) are modelled next to the arrays they copy.

    JavaScript strings are sequences of Unicode code points ([list N]).
    The Unicode tables behind [String.prototype.normalize('NFD')] and
    [toLowerCase], and the collation behind [localeCompare], are not
    modelled: they are the fields of the class [Unicode], and every result
    holds for any instance of it.  The JSON body parser and the JSON
    serialisation of responses are not modelled. *)

From Stdlib Require Import QArith ZArith.
From Stdlib Require Import Strings.String Strings.Ascii.
From stdpp Require Import base list gmap.
Abbreviation length := List.length.

Set Warnings "-register-all".

(* ------------------------------------------------------------------ *)
(** ** Strings, JSON values and query values *)

Abbreviation str := (list N).

(** ASCII literal to code points (used for the seed data). *)
Fixpoint u (x : String.string) : str :=
  match x with
  | String.EmptyString => []
  | String.String c r => Ascii.N_of_ascii c :: u r
  end.

(** A JSON value as produced by [express.json()]. *)
Inductive jval :=
  | JNull
  | JBool (b : bool)
  | JNum (q : Q)
  | JStr (x : str)
  | JArr (xs : list jval)
  | JObj (fields : list (str * jval)).

Definition str_truthy (x : str) : bool := negb (bool_decide (x = [])).

(** JavaScript truthiness of a JSON value. *)
Definition jtruthy (v : jval) : bool :=
  match v with
  | JNull => false
  | JBool b => b
  | JNum q => negb (Qeq_bool q 0)
  | JStr x => str_truthy x
  | JArr _ | JObj _ => true
  end.

(** [undefined] is [None]. *)
Definition truthy (v : option jval) : bool :=
  match v with Some v => jtruthy v | None => false end.

(** Property read on a parsed object: [JSON.parse] keeps the last of
    duplicated keys. *)
Definition obj_get (fs : list (str * jval)) (k : str) : option jval :=
  (fun p : nat * (str * jval) => p.2.2) <$> list_find (fun kv => kv.1 = k) (rev fs).

(** [const { attendeeId } = req.body || {};] *)
Definition body_attendee_id (body : option jval) : option jval :=
  let b := match body with
           | Some v => if jtruthy v then v else JObj []
           | None => JObj []
           end in
  match b with
  | JObj fs => obj_get fs (u "attendeeId"%string)
  | _ => None
  end.

(** [x === attendeeId] for a string [x]. *)
Definition js_eq_str (x : str) (v : option jval) : bool :=
  match v with Some (JStr y) => bool_decide (x = y) | _ => false end.

(** A value of [req.query]: a string, an array of strings (repeated key)
    or a nested object. *)
Inductive qval :=
  | QStr (x : str)
  | QArr (xs : list str)
  | QObj.

(** [v || d] for a query value and a string default. *)
Definition q_or (v : option qval) (d : str) : qval :=
  match v with
  | None => QStr d
  | Some (QStr x) => if str_truthy x then QStr x else QStr d
  | Some w => w
  end.

Definition join (sep : str) (xs : list str) : str :=
  match xs with
  | [] => []
  | x :: r => x ++ List.concat (List.map (fun y => sep ++ y) r)
  end.

(** [String(v)] *)
Definition js_string (v : qval) : str :=
  match v with
  | QStr x => x
  | QArr xs => join (u ","%string) xs
  | QObj => u "[object Object]"%string
  end.

(* ------------------------------------------------------------------ *)
(** ** Numbers: [parseInt], [Math.max], arithmetic, [Array.prototype.slice]

    The numbers these handlers compute with are IEEE doubles with an
    integral value: [NaN], the two infinities, or a finite integer [JInt z]
    that a double represents exactly.  Every operation rounds its exact
    result to the nearest double (ties to even) and overflows to an
    infinity at 2^1024.  Negative zero is not kept apart from zero: the
    only place it can arise here is [parseInt("-0")], whose value is at
    once passed through [Math.max(_, 1)], where both zeros give 1. *)

Inductive jsnum := JNaN | JInf (neg : bool) | JInt (z : Z).

(** Rounding of an integer to the nearest double, ties to even. *)
Definition round_double (z : Z) : jsnum :=
  let a := Z.abs z in
  if (a <=? 2 ^ 53)%Z then JInt z else
  let sh := (Z.log2 a - 52)%Z in
  let m := Z.shiftr a sh in
  let rem := (a - Z.shiftl m sh)%Z in
  let half := (2 ^ (sh - 1))%Z in
  let m' := if (half <? rem)%Z || ((rem =? half)%Z && Z.odd m) then (m + 1)%Z else m in
  let r := (m' * 2 ^ sh)%Z in
  if (2 ^ 1024 <=? r)%Z then JInf (z <? 0)%Z else JInt (Z.sgn z * r).

Definition is_ws (c : N) : bool :=
  bool_decide (c ∈ [9; 10; 11; 12; 13; 32; 160; 5760; 8232; 8233; 8239; 8287; 12288; 65279]%N)
  || ((8192 <=? c)%N && (c <=? 8202)%N).

Fixpoint drop_ws (x : str) : str :=
  match x with
  | c :: r => if is_ws c then drop_ws r else x
  | [] => []
  end.

Definition is_digit (c : N) : bool := ((48 <=? c)%N && (c <=? 57)%N).

Fixpoint take_digits (x : str) : str :=
  match x with
  | c :: r => if is_digit c then c :: take_digits r else []
  | [] => []
  end.

Definition digits_value (ds : str) : Z :=
  fold_left (fun acc d => acc * 10 + Z.of_N (d - 48))%Z ds 0%Z.

(** [parseInt(x, 10)]: the value of the digits, rounded to the nearest
    double (as V8 does; the standard also allows an implementation to
    replace the digits after the 20th significant one by zeros). *)
Definition parseInt10 (x : str) : jsnum :=
  let x1 := drop_ws x in
  let '(sign, x2) :=
    match x1 with
    | c :: r => if (c =? 45)%N then ((-1)%Z, r)
                else if (c =? 43)%N then (1%Z, r) else (1%Z, x1)
    | [] => (1%Z, x1)
    end in
  match take_digits x2 with
  | [] => JNaN
  | ds => round_double (sign * digits_value ds)
  end.

(** [Math.max(a, b)] *)
Definition js_max (a b : jsnum) : jsnum :=
  match a, b with
  | JNaN, _ | _, JNaN => JNaN
  | JInf false, _ | _, JInf false => JInf false
  | JInf true, y => y
  | x, JInf true => x
  | JInt x, JInt y => JInt (Z.max x y)
  end.

(** [a + b] *)
Definition js_add (a b : jsnum) : jsnum :=
  match a, b with
  | JNaN, _ | _, JNaN => JNaN
  | JInf s, JInf t => if Bool.eqb s t then JInf s else JNaN
  | JInf s, JInt _ | JInt _, JInf s => JInf s
  | JInt x, JInt y => round_double (x + y)
  end.

(** [-a] *)
Definition js_neg (a : jsnum) : jsnum :=
  match a with
  | JNaN => JNaN
  | JInf s => JInf (negb s)
  | JInt x => JInt (- x)
  end.

(** [a - b] *)
Definition js_sub (a b : jsnum) : jsnum := js_add a (js_neg b).

(** [a * b] *)
Definition js_mul (a b : jsnum) : jsnum :=
  match a, b with
  | JNaN, _ | _, JNaN => JNaN
  | JInf s, JInf t => JInf (xorb s t)
  | JInf s, JInt y | JInt y, JInf s =>
      if (y =? 0)%Z then JNaN else JInf (xorb s (y <? 0)%Z)
  | JInt x, JInt y => round_double (x * y)
  end.

(** [ToIntegerOrInfinity] followed by the clamping of [slice]. *)
Definition slice_index (len : Z) (x : jsnum) : Z :=
  match x with
  | JNaN => 0%Z
  | JInf false => len
  | JInf true => 0%Z
  | JInt r => if (r <? 0)%Z then Z.max (len + r) 0 else Z.min r len
  end.

(** [xs.slice(s, e)] *)
Definition js_slice {A} (xs : list A) (s e : jsnum) : list A :=
  let len := Z.of_nat (length xs) in
  let from := slice_index len s in
  let to := slice_index len e in
  firstn (Z.to_nat (to - from)) (skipn (Z.to_nat from) xs).

(** [Math.max(parseInt(v || d, 10), 1)] *)
Definition query_int (v : option qval) (d : str) : jsnum :=
  js_max (parseInt10 (js_string (q_or v d))) (JInt 1).

(* ------------------------------------------------------------------ *)
(** ** Stable sort with a comparator ([Array.prototype.sort])

    ECMAScript requires [sort] to be stable; for a consistent comparator
    the result is the unique stable sorted permutation, computed here by
    insertion. *)

Section Sort.
Context {A : Type} (cmp : A -> A -> comparison).

Fixpoint insert_by (x : A) (l : list A) : list A :=
  match l with
  | [] => [x]
  | y :: l' => match cmp y x with
               | Gt => x :: y :: l'
               | _ => y :: insert_by x l'
               end
  end.

Definition sort_by (l : list A) : list A :=
  fold_left (fun acc x => insert_by x acc) l [].
End Sort.

(* ------------------------------------------------------------------ *)
(** ** Data model *)

Record attendee := mkAttendee {
  att_id : str;
  att_name : str;
  att_email : str;
  att_document : str;
  att_checkedInAt : option str  (* null is None *)
}.

Record event := mkEvent {
  ev_id : str;
  ev_title : str;
  ev_startsAt : str;
  ev_endsAt : str;
  ev_location : str;
  ev_attendees : N  (* reference to the attendees array *)
}.

#[export] Instance attendee_inhabited : Inhabited attendee :=
  populate (mkAttendee [] [] [] [] None).
#[export] Instance event_inhabited : Inhabited event :=
  populate (mkEvent [] [] [] [] [] 0).

(** The process memory: the constant [events] array, the heap of attendee
    arrays and the next free reference. *)
Record store := mkStore {
  st_events : list event;
  st_heap : gmap N (list attendee);
  st_next : N
}.

Definition arr_get (st : store) (l : N) : list attendee :=
  default [] (st_heap st !! l).

Definition arr_set (st : store) (l : N) (xs : list attendee) : store :=
  mkStore (st_events st) (<[l := xs]> (st_heap st)) (st_next st).

(** Allocation of a fresh array. *)
Definition alloc (st : store) (xs : list attendee) : N * store :=
  (st_next st, mkStore (st_events st) (<[st_next st := xs]> (st_heap st)) (st_next st + 1)%N).

Record stats := mkStats { total : Z; checkedIn : Z; absent : Z }.

Record event_summary := mkSummary {
  sum_id : str;
  sum_title : str;
  sum_startsAt : str;
  sum_endsAt : str;
  sum_location : str;
  sum_stats : stats
}.

Record query := mkQuery {
  q_search : option qval;
  q_page : option qval;
  q_limit : option qval
}.

Inductive response :=
  | RHealth (time : str)                                   (* 200 *)
  | REvents (evs : list event_summary)                     (* 200 *)
  | REvent (ev : event_summary)                            (* 200 *)
  | RPage (data : list attendee) (page limit : jsnum) (total : nat)  (* 200 *)
  | RCreated (attendeeId : option jval) (checkedInAt : option str)  (* 201 *)
  | RConflict (attendeeId : option jval) (checkedInAt : option str) (* 409 *)
  | RBadRequest                                            (* 400 *)
  | RNotFound                                              (* 404 *)
  | RUnprocessable.                                        (* 422 *)

(** The requests of the five routes; [now] is the value of [nowISO()]. *)
Inductive op :=
  | Health (now : str)
  | ListEvents
  | GetEvent (eid : str)
  | ListAttendees (eid : str) (q : query)
  | Checkin (eid : str) (body : option jval) (now : str).

(** [findEvent] *)
Definition find_event (evs : list event) (eid : str) : option event :=
  (fun p : nat * event => p.2) <$> list_find (fun e => ev_id e = eid) evs.

Definition ts_truthy (t : option str) : bool :=
  match t with Some x => str_truthy x | None => false end.

(** [buildStats] *)
Definition build_stats (st : store) (e : event) : stats :=
  let atts := arr_get st (ev_attendees e) in
  let tot := Z.of_nat (length atts) in
  let ci := Z.of_nat (length (List.filter (fun a => ts_truthy (att_checkedInAt a)) atts)) in
  mkStats tot ci (tot - ci).

Definition summary (st : store) (e : event) : event_summary :=
  mkSummary (ev_id e) (ev_title e) (ev_startsAt e) (ev_endsAt e) (ev_location e)
            (build_stats st e).

(* ------------------------------------------------------------------ *)
(** ** Unicode services of the JavaScript runtime *)

Class Unicode := {
  to_nfd : str -> str;                     (* s.normalize('NFD') *)
  to_lower : str -> str;                   (* s.toLowerCase() *)
  locale_compare : str -> str -> comparison  (* a.localeCompare(b) *)
}.

Definition is_combining_mark (c : N) : bool := ((768 <=? c)%N && (c <=? 879)%N).

Fixpoint starts_with (x p : str) : bool :=
  match p, x with
  | [], _ => true
  | c :: p', d :: x' => (c =? d)%N && starts_with x' p'
  | _ :: _, [] => false
  end.

(** [x.includes(p)] *)
Fixpoint includes (x p : str) : bool :=
  starts_with x p || match x with [] => false | _ :: x' => includes x' p end.

Section Handlers.
Context `{U : Unicode}.

(** [normalize]: NFD, strip U+0300..U+036F, lowercase. *)
Definition normalize (x : str) : str :=
  to_lower (List.filter (fun c => negb (is_combining_mark c)) (to_nfd x)).

(** The text the search is matched against. *)
Definition search_target (a : attendee) : str :=
  normalize (att_name a) ++ [32%N] ++ normalize (att_email a) ++ [32%N]
  ++ normalize (att_document a).

Definition cmp_name (a b : attendee) : comparison :=
  locale_compare (normalize (att_name a)) (normalize (att_name b)).

(** [GET /events/:id/attendees] *)
Definition list_attendees (st : store) (eid : str) (q : query) : response * store :=
  match find_event (st_events st) eid with
  | None => (RNotFound, st)
  | Some ev =>
      let search := normalize (js_string (q_or (q_search q) [])) in
      let page := query_int (q_page q) (u "1") in
      let limit := query_int (q_limit q) (u "20") in
      (* let list = event.attendees.slice(); *)
      let '(lst, st1) := alloc st (arr_get st (ev_attendees ev)) in
      (* if (search) list = list.filter(...); *)
      let '(lst, st2) :=
        if str_truthy search
        then alloc st1 (List.filter (fun a => includes (search_target a) search)
                                    (arr_get st1 lst))
        else (lst, st1) in
      (* list.sort(...), in place *)
      let st3 := arr_set st2 lst (sort_by cmp_name (arr_get st2 lst)) in
      let tot := length (arr_get st3 lst) in
      let start := js_mul (js_sub page (JInt 1)) limit in
      let end_ := js_add start limit in
      let '(data, st4) := alloc st3 (js_slice (arr_get st3 lst) start end_) in
      (RPage (arr_get st4 data) page limit tot, st4)
  end.

(** [POST /events/:id/checkin] *)
Definition checkin (st : store) (eid : str) (body : option jval) (now : str)
    : response * store :=
  match find_event (st_events st) eid with
  | None => (RNotFound, st)
  | Some ev =>
      let attendeeId := body_attendee_id body in
      if negb (truthy attendeeId) then (RBadRequest, st) else
      let arr := arr_get st (ev_attendees ev) in
      match list_find (fun a => js_eq_str (att_id a) attendeeId = true) arr with
      | None => (RUnprocessable, st)
      | Some (j, a) =>
          if ts_truthy (att_checkedInAt a)
          then (RConflict attendeeId (att_checkedInAt a), st)
          else
            let a' := mkAttendee (att_id a) (att_name a) (att_email a)
                                 (att_document a) (Some now) in
            (RCreated attendeeId (Some now),
             arr_set st (ev_attendees ev) (<[j := a']> arr))
      end
  end.

(** The router. *)
Definition run_op (st : store) (o : op) : response * store :=
  match o with
  | Health now => (RHealth now, st)
  | ListEvents => (REvents (List.map (summary st) (st_events st)), st)
  | GetEvent eid =>
      match find_event (st_events st) eid with
      | None => (RNotFound, st)
      | Some e => (REvent (summary st e), st)
      end
  | ListAttendees eid q => list_attendees st eid q
  | Checkin eid body now => checkin st eid body now
  end.

(** [nowISO()] never yields the empty string. *)
Definition clock_ok (o : op) : Prop :=
  match o with Checkin _ _ now => now <> [] | _ => True end.

Definition step (st st' : store) : Prop :=
  exists o, clock_ok o /\ (run_op st o).2 = st'.
End Handlers.

(* ------------------------------------------------------------------ *)
(** ** Seed data *)

Definition seed_events : list event := [
  mkEvent (u "evt_123") (u "Confer" ++ [234%N] ++ u "ncia de Tecnologia 2025")
          (u "2025-09-15T09:00:00-03:00") (u "2025-09-15T18:00:00-03:00")
          (u "Audit" ++ [243%N] ++ u "rio AMF") 0;
  mkEvent (u "evt_456") (u "Simp" ++ [243%N] ++ u "sio de IA Aplicada")
          (u "2025-10-10T14:00:00-03:00") (u "2025-10-10T19:00:00-03:00")
          (u "Centro de Inova" ++ [231%N; 227%N] ++ u "o") 1 ]%N.

Definition seed_attendees_123 : list attendee := [
  mkAttendee (u "att_001") (u "Ana Souza") (u "ana@exemplo.com") (u "123.456.789-00") None;
  mkAttendee (u "att_002") (u "Jos" ++ [233%N] ++ u " da Silva") (u "jose@exemplo.com")
             (u "987.654.321-00") None;
  mkAttendee (u "att_003") (u "Marcos Pereira") (u "marcos@exemplo.com") (u "111.222.333-44")
             (Some (u "2025-09-15T09:32:12-03:00")) ].

Definition seed_attendees_456 : list attendee := [
  mkAttendee (u "att_101") (u "Bianca Felix") (u "bianca@exemplo.com") (u "222.333.444-55") None;
  mkAttendee (u "att_102") (u "Felipe Nunes") (u "felipe@exemplo.com") (u "333.444.555-66") None ].

Definition seed : store :=
  mkStore seed_events (<[0%N := seed_attendees_123]> (<[1%N := seed_attendees_456]> ∅)) 2.

Inductive reachable `{Unicode} : store -> Prop :=
  | reach_seed : reachable seed
  | reach_step st st' : reachable st -> step st st' -> reachable st'.

(* ------------------------------------------------------------------ *)
(** ** Observations on the store *)

(** What the global [events] array reaches: the attendee arrays of the
    events, in order. *)
Definition view (st : store) : list (list attendee) :=
  (fun e => arr_get st (ev_attendees e)) <$> st_events st.

Definition attendee_at (st : store) (i j : nat) : option attendee :=
  view st !! i ≫= fun arr => arr !! j.

Definition set_checkedInAt (a : attendee) (t : str) : attendee :=
  mkAttendee (att_id a) (att_name a) (att_email a) (att_document a) (Some t).

Definition ts_ok (t : option str) : Prop :=
  match t with Some x => x <> [] | None => True end.

#[export] Instance ts_ok_dec (t : option str) : Decision (ts_ok t).
Proof. destruct t; simpl; apply _. Defined.

(** Invariant of the reachable stores. *)
Definition inv (st : store) : Prop :=
  st_events st = seed_events /\ (2 <= st_next st)%N /\
  (fun arr : list attendee => att_id <$> arr) <$> view st =
  (fun arr : list attendee => att_id <$> arr) <$> view seed /\
  Forall (Forall (fun a => ts_ok (att_checkedInAt a))) (view st).

(** Stats as the spec defines them: non-null timestamps are counted. *)
Definition stats_ok (atts : list attendee) (s : stats) : Prop :=
  total s = Z.of_nat (length atts) /\
  checkedIn s = Z.of_nat (length (List.filter (fun a => bool_decide (is_Some (att_checkedInAt a))) atts)) /\
  (checkedIn s + absent s = total s)%Z.

(** Consecutive elements are in order for a comparator. *)
Fixpoint ordered {A} (cmp : A -> A -> comparison) (l : list A) : Prop :=
  match l with
  | a :: ((b :: _) as t) => cmp a b <> Gt /\ ordered cmp t
  | _ => True
  end.

(** Decimal rendering of a natural number, for page and limit values. *)
Fixpoint dec_digits (fuel : nat) (n : N) : str :=
  match fuel with
  | O => []
  | S f => if (n <? 10)%N then [48 + n]%N else dec_digits f (n / 10) ++ [48 + n mod 10]%N
  end.

Definition dec (n : nat) : str := dec_digits (S n) (N.of_nat n).

Definition page_data (r : response) : list attendee :=
  match r with RPage d _ _ _ => d | _ => [] end.

Section Observations.
Context `{Unicode}.

(** The search text the handler works with. *)
Definition search_norm (q : query) : str := normalize (js_string (q_or (q_search q) [])).

(** The attendees of [ev] whose search target contains [search], sorted
    by name. *)
Definition matches_sorted (st : store) (ev : event) (search : str) : list attendee :=
  sort_by cmp_name (List.filter (fun a => includes (search_target a) search)
                                (arr_get st (ev_attendees ev))).
End Observations.

(* ------------------------------------------------------------------ *)
(** ** The bearer-token middleware and the application

    [authMiddleware] runs after the body parser and before every route. *)

(** [const TOKEN = process.env.TOKEN || null;] *)
Definition env_TOKEN (env : option str) : option str :=
  match env with
  | Some t => if str_truthy t then Some t else None
  | None => None
  end.

(** [authMiddleware]: [true] is [next()], [false] the 401 answer.
    [authorization] is [req.headers.authorization]. *)
Definition authMiddleware (TOKEN : option str) (authorization : option str) : bool :=
  match TOKEN with
  | None => true
  | Some t =>
      if negb (str_truthy t) then true else
      let header := match authorization with
                    | Some h => if str_truthy h then h else []
                    | None => []
                    end in
      let expected := u "Bearer " ++ t in
      bool_decide (header = expected)
  end.

(** What the client receives: the 401 of the middleware or the answer of
    a route. *)
Inductive reply :=
  | RUnauthorized                                          (* 401 *)
  | RHandled (r : response).

Section App.
Context `{Unicode}.

(** A request through the middleware and the router. *)
Definition app_request (TOKEN : option str) (authorization : option str) (st : store) (o : op)
    : reply * store :=
  if authMiddleware TOKEN authorization
  then let '(r, st') := run_op st o in (RHandled r, st')
  else (RUnauthorized, st).
End App.

(* ------------------------------------------------------------------ *)
(** ** A concrete instance: a Latin-1 fragment of the Unicode tables *)

(** Canonical decompositions of some precomposed Latin-1 letters. *)
Definition latin1_decomp : list (N * str) := [
  (192, [65; 768]); (193, [65; 769]); (194, [65; 770]); (195, [65; 771]);
  (199, [67; 807]); (201, [69; 769]); (202, [69; 770]); (205, [73; 769]);
  (211, [79; 769]); (212, [79; 770]); (213, [79; 771]); (218, [85; 769]);
  (224, [97; 768]); (225, [97; 769]); (226, [97; 770]); (227, [97; 771]);
  (231, [99; 807]); (233, [101; 769]); (234, [101; 770]); (237, [105; 769]);
  (243, [111; 769]); (244, [111; 770]); (245, [111; 771]); (250, [117; 769])]%N.

Definition latin1_nfd (x : str) : str :=
  List.concat (List.map (fun c =>
    match list_find (fun p => p.1 = c) latin1_decomp with
    | Some (_, (_, d)) => d
    | None => [c]
    end) x).

Definition latin1_lower (x : str) : str :=
  List.map (fun c =>
    if ((65 <=? c) && (c <=? 90)) || ((192 <=? c) && (c <=? 222) && negb (c =? 215))
    then c + 32 else c)%N x.

(** Code-point order. *)
Fixpoint lex_compare (x y : str) : comparison :=
  match x, y with
  | [], [] => Eq
  | [], _ :: _ => Lt
  | _ :: _, [] => Gt
  | c :: x', d :: y' => match N.compare c d with Eq => lex_compare x' y' | r => r end
  end.

#[export] Instance latin1 : Unicode := {
  to_nfd := latin1_nfd;
  to_lower := latin1_lower;
  locale_compare := lex_compare
}.

(** The end-to-end scenarios of the spec, on the seed data. *)
Definition q_default : query := mkQuery None None None.

Definition stats_of (r : response) : option stats :=
  match r with REvent s => Some (sum_stats s) | _ => None end.

Definition page_ids (r : response) : list str :=
  match r with RPage d _ _ _ => List.map att_id d | _ => [] end.

Definition body_of (aid : str) : option jval := Some (JObj [(u "attendeeId", JStr aid)]).

Example scenario_A :
  stats_of (run_op seed (GetEvent (u "evt_123"))).1 = Some (mkStats 3 1 2).
Proof. vm_compute. reflexivity. Qed.

Example scenario_B :
  page_ids (run_op seed (ListAttendees (u "evt_123")
                           (mkQuery (Some (QStr (u "ana"))) None None))).1 = [u "att_001"].
Proof. vm_compute. reflexivity. Qed.

Example scenario_B_accents :
  page_ids (run_op seed (ListAttendees (u "evt_123")
                           (mkQuery (Some (QStr (u "Jos" ++ [233%N]))) None None))).1
  = [u "att_002"].
Proof. vm_compute. reflexivity. Qed.

Example scenario_sorted :
  page_ids (run_op seed (ListAttendees (u "evt_456") q_default)).1 = [u "att_101"; u "att_102"].
Proof. vm_compute. reflexivity. Qed.

Example scenario_C :
  let '(r1, st1) := run_op seed (Checkin (u "evt_456") (body_of (u "att_101")) (u "T1")) in
  let '(r2, st2) := run_op st1 (Checkin (u "evt_456") (body_of (u "att_101")) (u "T2")) in
  r1 = RCreated (Some (JStr (u "att_101"))) (Some (u "T1")) /\
  r2 = RConflict (Some (JStr (u "att_101"))) (Some (u "T1")) /\ st2 = st1.
Proof. vm_compute. auto. Qed.

Example scenario_D :
  (run_op seed (Checkin (u "evt_123") (body_of (u "att_999")) (u "T"))).1 = RUnprocessable.
Proof. vm_compute. reflexivity. Qed.

Example scenario_E :
  (run_op seed (GetEvent (u "does_not_exist"))).1 = RNotFound.
Proof. vm_compute. reflexivity. Qed.

(* ------------------------------------------------------------------ *)
(** ** Lemmas on the heap and the handlers *)

(** Closes a decidable goal by evaluation. *)
Ltac by_decide :=
  match goal with |- ?P => apply (bool_decide_unpack P); vm_compute; reflexivity end.

Lemma list_find_unique {A B} (P : A -> Prop) `{!∀ x, Decision (P x)} (f : A -> B)
    (l : list A) (i : nat) (x : A) :
  NoDup (f <$> l) -> l !! i = Some x -> (forall y, P y <-> f y = f x) ->
  list_find P l = Some (i, x).
Proof.
  intros Hnd Hi HP. apply list_find_Some. split; [done|split; [by apply HP|]].
  intros j y Hj Hlt HPy. apply HP in HPy.
  assert (j = i); [|lia].
  eapply NoDup_lookup; [exact Hnd| |].
  - rewrite list_lookup_fmap, Hj. simpl. rewrite HPy. reflexivity.
  - rewrite list_lookup_fmap, Hi. reflexivity.
Qed.

Lemma find_event_Some evs eid ev :
  find_event evs eid = Some ev -> exists i, evs !! i = Some ev /\ ev_id ev = eid.
Proof.
  unfold find_event. destruct (list_find _ _) as [[i e]|] eqn:Hf; simpl; [|done].
  intros [= <-]. apply list_find_Some in Hf as (Hi & Hid & _). eauto.
Qed.

Lemma arr_get_alloc_old st xs l :
  (l < st_next st)%N -> arr_get (alloc st xs).2 l = arr_get st l.
Proof. intros Hl. unfold arr_get, alloc; simpl. rewrite lookup_insert_ne; [done|lia]. Qed.

Lemma list_attendees_frame `{Unicode} st eid q r st' :
  list_attendees st eid q = (r, st') ->
  st_events st' = st_events st /\ (st_next st <= st_next st')%N /\
  forall l, (l < st_next st)%N -> arr_get st' l = arr_get st l.
Proof.
  unfold list_attendees.
  destruct (find_event _ _) as [ev|]; [|intros [= <- <-]; split; [done|split; [lia|done]]].
  unfold alloc, arr_set; simpl.
  destruct (str_truthy _); simpl; intros [= <- <-]; simpl;
    (split; [done|split; [lia|]]); intros l Hl; unfold arr_get; simpl;
    rewrite !lookup_insert_ne by lia; done.
Qed.

Lemma checkin_cases st eid body now r st' :
  checkin st eid body now = (r, st') ->
  (st' = st /\ forall aid t, r <> RCreated aid t) \/
  exists ev j a,
    find_event (st_events st) eid = Some ev /\
    arr_get st (ev_attendees ev) !! j = Some a /\
    body_attendee_id body = Some (JStr (att_id a)) /\
    ts_truthy (att_checkedInAt a) = false /\
    r = RCreated (body_attendee_id body) (Some now) /\
    st' = arr_set st (ev_attendees ev)
                  (<[j := set_checkedInAt a now]> (arr_get st (ev_attendees ev))).
Proof.
  unfold checkin.
  destruct (find_event _ _) as [ev|] eqn:Hev; [|intros [= <- <-]; by left].
  destruct (truthy _); simpl; [|intros [= <- <-]; by left].
  destruct (list_find _ _) as [[j a]|] eqn:Hf; [|intros [= <- <-]; by left].
  apply list_find_Some in Hf as (Hj & Heq & _).
  destruct (ts_truthy _) eqn:Ht; intros [= <- <-]; [by left|].
  right. exists ev, j, a. repeat split; try done.
  unfold js_eq_str in Heq. destruct (body_attendee_id body) as [[]|]; try done.
  apply bool_decide_eq_true in Heq. by subst.
Qed.

Lemma view_arr_set st i ev xs :
  NoDup (ev_attendees <$> st_events st) -> st_events st !! i = Some ev ->
  view (arr_set st (ev_attendees ev) xs) = <[i := xs]> (view st).
Proof.
  intros Hnd Hi. apply list_eq. intros k. unfold view; simpl.
  destruct (decide (k = i)) as [->|Hk].
  - rewrite list_lookup_insert_eq.
    + rewrite list_lookup_fmap, Hi. simpl. unfold arr_get. simpl.
      by rewrite lookup_insert_eq.
    + rewrite length_fmap. by eapply lookup_lt_Some.
  - rewrite list_lookup_insert_ne by done. rewrite !list_lookup_fmap.
    destruct (st_events st !! k) as [e|] eqn:Hke; simpl; [|done].
    f_equal. unfold arr_get. simpl. rewrite lookup_insert_ne; [done|].
    intros Heq. apply Hk. eapply NoDup_lookup; [exact Hnd| |].
    + rewrite list_lookup_fmap, Hke. reflexivity.
    + rewrite list_lookup_fmap, Hi. simpl. by rewrite Heq.
Qed.

Lemma view_frame st st' :
  st_events st' = st_events st ->
  (forall i e, st_events st !! i = Some e -> arr_get st' (ev_attendees e) = arr_get st (ev_attendees e)) ->
  view st' = view st.
Proof.
  intros Hev Harr. apply list_eq. intros k. unfold view. rewrite Hev, !list_lookup_fmap.
  destruct (st_events st !! k) eqn:Hk; simpl; [|done]. f_equal. eauto.
Qed.

(** Under the invariant the events are the seed events: their attendee
    arrays are distinct and below the allocation pointer. *)
Lemma seed_locs_nodup : NoDup (ev_attendees <$> seed_events).
Proof. by_decide. Qed.

Lemma seed_locs_small i e : seed_events !! i = Some e -> (ev_attendees e < 2)%N.
Proof. destruct i as [|[|i]]; simpl; intros [= <-]; simpl; lia. Qed.

Lemma seed_ids_ok :
  Forall (fun ids => NoDup ids /\ Forall (fun x : str => x <> []) ids)
         ((fun arr : list attendee => att_id <$> arr) <$> view seed).
Proof. by_decide. Qed.

Lemma seed_event_ids_nodup : NoDup (ev_id <$> seed_events).
Proof. by_decide. Qed.

Lemma inv_locs st :
  inv st ->
  NoDup (ev_attendees <$> st_events st) /\
  forall i e, st_events st !! i = Some e -> (ev_attendees e < st_next st)%N.
Proof.
  intros (Hev & Hnext & _ & _). rewrite Hev. split; [apply seed_locs_nodup|].
  intros i e Hi. apply seed_locs_small in Hi. lia.
Qed.

Section HandlerLemmas.
Context `{Unicode}.

Definition is_query (o : op) : Prop :=
  match o with Checkin _ _ _ => False | _ => True end.

(** The query routes leave the events and their attendee arrays alone. *)
Lemma query_frame st o :
  (forall i e, st_events st !! i = Some e -> (ev_attendees e < st_next st)%N) ->
  is_query o ->
  st_events (run_op st o).2 = st_events st /\
  (st_next st <= st_next (run_op st o).2)%N /\
  view (run_op st o).2 = view st.
Proof.
  intros Hsmall Hq. destruct o as [now| |eid|eid q|]; simpl.
  1,2: repeat split; lia || done.
  { destruct (find_event _ _); simpl; repeat split; lia || done. }
  2: done.
  destruct (list_attendees st eid q) as [r st'] eqn:Hl. simpl.
  apply list_attendees_frame in Hl as (Hev & Hn & Harr).
  split; [done|split; [done|]]. apply view_frame; [done|]. eauto.
Qed.

(** A check-in either changes nothing or sets the timestamp of one
    attendee whose timestamp was falsy. *)
Lemma checkin_view st eid body now r st' :
  NoDup (ev_attendees <$> st_events st) ->
  checkin st eid body now = (r, st') ->
  (st' = st /\ forall aid t, r <> RCreated aid t) \/
  exists i j ev arr a,
    st_events st !! i = Some ev /\ ev_id ev = eid /\
    view st !! i = Some arr /\ arr !! j = Some a /\
    body_attendee_id body = Some (JStr (att_id a)) /\
    ts_truthy (att_checkedInAt a) = false /\
    r = RCreated (body_attendee_id body) (Some now) /\
    st_events st' = st_events st /\ st_next st' = st_next st /\
    view st' = <[i := <[j := set_checkedInAt a now]> arr]> (view st).
Proof.
  intros Hnd Hc.
  apply checkin_cases in Hc as [?|(ev & j & a & Hev & Hj & Hb & Ht & -> & ->)];
    [by left|right].
  apply find_event_Some in Hev as (i & Hi & Hid).
  exists i, j, ev, (arr_get st (ev_attendees ev)), a.
  do 2 (split; [done|]).
  split; [unfold view; by rewrite list_lookup_fmap, Hi|].
  do 6 (split; [done|]). by apply view_arr_set.
Qed.

Lemma inv_step st st' : inv st -> step st st' -> inv st'.
Proof.
  intros Hinv (o & Hclk & <-). pose proof (inv_locs st Hinv) as [Hnd Hsmall].
  destruct Hinv as (Hev & Hnext & Hids & Hts).
  destruct o as [now| |eid|eid q|eid body now].
  1-4: match goal with |- inv (snd (run_op ?s ?o)) =>
         destruct (query_frame s o Hsmall I) as (Hev' & Hn' & Hv');
         unfold inv; rewrite Hev', Hv'; repeat split; try done; lia
       end.
  - simpl in Hclk |- *. destruct (checkin st eid body now) as [r st'] eqn:Hc. simpl.
    destruct (checkin_view st eid body now r st' Hnd Hc)
      as [[-> _]|(i & j & ev & arr & a & _ & _ & Hi & Hj & _ & Ht & _ & Hev' & Hn' & Hv')];
      [done|].
    unfold inv. rewrite Hev', Hn', Hv'. split; [done|split; [done|split]].
    + rewrite list_fmap_insert, list_fmap_insert.
      change (att_id (set_checkedInAt a now)) with (att_id a).
      rewrite (list_insert_id (att_id <$> arr) j (att_id a))
        by (rewrite list_lookup_fmap, Hj; done).
      rewrite <- Hids. apply list_insert_id. by rewrite list_lookup_fmap, Hi.
    + apply Forall_insert; [done|]. apply Forall_insert; [|exact Hclk].
      eapply Forall_lookup_1; [exact Hts|exact Hi].
Qed.

Lemma reachable_inv st : reachable st -> inv st.
Proof.
  induction 1 as [|st st' _ IH Hs].
  - split; [done|split; [simpl; lia|split; [done|]]]. by_decide.
  - by eapply inv_step.
Qed.
End HandlerLemmas.

Section Monotone.
Context `{Unicode}.

Lemma step_keeps_checked st st' i j a :
  inv st -> step st st' -> attendee_at st i j = Some a ->
  ts_truthy (att_checkedInAt a) = true -> attendee_at st' i j = Some a.
Proof.
  intros Hinv (o & _ & <-) Ha Ht. destruct (inv_locs st Hinv) as [Hnd Hsmall].
  destruct o as [now| |eid|eid q|eid body now].
  1-4: match goal with |- attendee_at (snd (run_op ?s ?o)) _ _ = _ =>
         destruct (query_frame s o Hsmall I) as (_ & _ & Hv');
         unfold attendee_at; rewrite Hv'; exact Ha
       end.
  simpl. destruct (checkin st eid body now) as [r st'] eqn:Hc. simpl.
  destruct (checkin_view st eid body now r st' Hnd Hc)
    as [[-> _]|(i0 & j0 & ev & arr & a0 & _ & _ & Hi & Hj & _ & Ht0 & _ & _ & _ & Hv')];
    [done|].
  unfold attendee_at in *. rewrite Hv'.
  destruct (decide (i = i0)) as [->|Hne].
  - rewrite list_lookup_insert_eq by (eapply lookup_lt_Some; exact Hi). simpl.
    rewrite Hi in Ha. simpl in Ha.
    destruct (decide (j = j0)) as [->|Hjne].
    + rewrite Hj in Ha. injection Ha as ->. congruence.
    + by rewrite list_lookup_insert_ne.
  - by rewrite list_lookup_insert_ne.
Qed.

Lemma inv_attendee_id st i j a :
  inv st -> attendee_at st i j = Some a ->
  exists arr, view st !! i = Some arr /\ arr !! j = Some a /\
              NoDup (att_id <$> arr) /\ att_id a <> [].
Proof.
  intros (_ & _ & Hids & _) Ha. unfold attendee_at in Ha.
  destruct (view st !! i) as [arr|] eqn:Hi; simpl in Ha; [|done].
  exists arr. split; [done|split; [done|]].
  assert (Hs : ((fun arr : list attendee => att_id <$> arr) <$> view seed) !! i
               = Some (att_id <$> arr)) by (rewrite <- Hids, list_lookup_fmap, Hi; done).
  destruct (Forall_lookup_1 _ _ _ _ seed_ids_ok Hs) as [Hnd Hne].
  split; [done|]. apply (Forall_lookup_1 (fun x : str => x <> []) _ j _ Hne).
  by rewrite list_lookup_fmap, Ha.
Qed.

Lemma checkin_conflict st i j ev a body now :
  inv st -> st_events st !! i = Some ev -> attendee_at st i j = Some a ->
  ts_truthy (att_checkedInAt a) = true ->
  body_attendee_id body = Some (JStr (att_id a)) ->
  checkin st (ev_id ev) body now = (RConflict (Some (JStr (att_id a))) (att_checkedInAt a), st).
Proof.
  intros Hinv Hev Ha Ht Hb.
  destruct (inv_attendee_id st i j a Hinv Ha) as (arr & Hi & Hj & Hnd & Hne).
  assert (Harr : arr = arr_get st (ev_attendees ev))
    by (unfold view in Hi; rewrite list_lookup_fmap, Hev in Hi; by injection Hi).
  unfold checkin, find_event.
  rewrite (list_find_unique _ ev_id _ i ev); simpl.
  2: { destruct Hinv as [-> _]. apply seed_event_ids_nodup. }
  2: done.
  2: done.
  rewrite Hb. simpl. unfold str_truthy. rewrite bool_decide_eq_false_2 by done. simpl.
  rewrite <- Harr.
  rewrite (list_find_unique _ att_id _ j a Hnd Hj).
  2: { intros y. unfold js_eq_str. by rewrite bool_decide_eq_true. }
  by rewrite Ht.
Qed.
End Monotone.

(* ------------------------------------------------------------------ *)
(** ** Sorting *)

Section SortLemmas.
Context {A : Type} (cmp : A -> A -> comparison).

Lemma insert_by_perm x l : insert_by cmp x l ≡ₚ x :: l.
Proof.
  induction l as [|y l IH]; simpl; [done|].
  destruct (cmp y x); try done; rewrite IH; apply perm_swap.
Qed.

Lemma sort_by_perm l : sort_by cmp l ≡ₚ l.
Proof.
  unfold sort_by. cut (forall acc, fold_left (fun acc x => insert_by cmp x acc) l acc ≡ₚ acc ++ l).
  { intros Hc. by rewrite Hc. }
  induction l as [|x l IH]; intros acc; simpl; [by rewrite app_nil_r|].
  rewrite IH, insert_by_perm. simpl. apply Permutation_middle.
Qed.

Lemma ordered_cons_inv x l : ordered cmp (x :: l) -> ordered cmp l.
Proof. destruct l; simpl; tauto. Qed.

Lemma ordered_skipn n l : ordered cmp l -> ordered cmp (skipn n l).
Proof.
  revert l. induction n as [|n IH]; intros [|x l] Hl; simpl; try done.
  apply IH. by eapply ordered_cons_inv.
Qed.

Lemma ordered_firstn n l : ordered cmp l -> ordered cmp (firstn n l).
Proof.
  revert l. induction n as [|n IH]; intros [|x l] Hl; simpl; try done.
  destruct n as [|n]; destruct l as [|y l]; simpl in *; try done.
  destruct Hl as [Hxy Hl]. split; [done|]. by apply (IH (y :: l)).
Qed.

Lemma ordered_js_slice l s e : ordered cmp l -> ordered cmp (js_slice l s e).
Proof. intros Hl. unfold js_slice. by apply ordered_firstn, ordered_skipn. Qed.

Hypothesis cmp_antisym : forall x y, cmp x y = CompOpp (cmp y x).

Lemma insert_by_ordered x l : ordered cmp l -> ordered cmp (insert_by cmp x l).
Proof.
  induction l as [|y l IH]; intros Hl; simpl; [done|].
  destruct (cmp y x) eqn:Hyx.
  3: { simpl. split; [rewrite cmp_antisym, Hyx; discriminate|done]. }
  all: assert (Hyx' : cmp y x <> Gt) by congruence.
  all: destruct l as [|z l]; simpl; [done|].
  all: destruct Hl as [Hyz Hl]; pose proof (IH Hl) as IH'; simpl in IH'.
  all: destruct (cmp z x) eqn:Hzx; rewrite ?Hzx in IH'; simpl in IH' |- *; split; done.
Qed.

Lemma sort_by_ordered l : ordered cmp (sort_by cmp l).
Proof.
  unfold sort_by. cut (forall acc, ordered cmp acc ->
                        ordered cmp (fold_left (fun acc x => insert_by cmp x acc) l acc)).
  { intros Hc. by apply Hc. }
  induction l as [|x l IH]; intros acc Hacc; simpl; [done|].
  apply IH, insert_by_ordered, Hacc.
Qed.
End SortLemmas.

(* ------------------------------------------------------------------ *)
(** ** The attendee-list handler in closed form *)

Lemma includes_nil x : includes x [] = true.
Proof. destruct x; reflexivity. Qed.

Section ListLemmas.
Context `{Unicode}.

Lemma search_q_str (x : str) : js_string (q_or (Some (QStr x)) []) = x.
Proof. simpl. unfold str_truthy. case_bool_decide; simpl; congruence. Qed.

(** The data array is the slice of [matches_sorted] the effective page
    and limit select, and the total is the length of [matches_sorted]. *)
Lemma list_attendees_spec st eid q ev :
  find_event (st_events st) eid = Some ev ->
  let page := query_int (q_page q) (u "1") in
  let limit := query_int (q_limit q) (u "20") in
  let start := js_mul (js_sub page (JInt 1)) limit in
  let L := matches_sorted st ev (search_norm q) in
  (list_attendees st eid q).1 =
  RPage (js_slice L start (js_add start limit)) page limit (length L).
Proof.
  intros Hev. unfold list_attendees, matches_sorted, search_norm. rewrite Hev.
  unfold alloc, arr_set, arr_get; simpl.
  destruct (str_truthy _) eqn:Hs; simpl.
  - rewrite !lookup_insert_eq. simpl. reflexivity.
  - rewrite !lookup_insert_eq. simpl.
    match goal with |- context [List.filter ?f ?l] => rewrite (List.filter_ext_in f (fun _ => true)) end.
    + by rewrite List.filter_true.
    + intros a _. unfold str_truthy in Hs. apply negb_false_iff, bool_decide_eq_true in Hs.
      rewrite Hs. apply includes_nil.
Qed.
End ListLemmas.

(** *** Rounding *)

Lemma round_double_exact z : (Z.abs z <= 2 ^ 53)%Z -> round_double z = JInt z.
Proof. intros Hz. unfold round_double. apply Z.leb_le in Hz. by rewrite Hz. Qed.

(** Above 2^53 the rounded value is a multiple of 2^(log2 z - 52) at
    least 2^(log2 z), or infinity once it reaches 2^1024. *)
Lemma round_double_above z :
  (2 ^ 53 < z)%Z ->
  exists r, (2 ^ Z.log2 z <= r)%Z /\
            round_double z = if (2 ^ 1024 <=? r)%Z then JInf false else JInt r.
Proof.
  intros Hz. unfold round_double. cbv zeta. rewrite Z.abs_eq by lia.
  destruct (Z.leb_spec z (2 ^ 53)) as [?|_]; [lia|].
  set (k := Z.log2 z).
  assert (Hk : (53 <= k)%Z) by (apply Z.log2_le_pow2; lia).
  assert (Hpk : (2 ^ k <= z)%Z) by (apply Z.log2_spec; lia).
  rewrite Z.shiftr_div_pow2 by lia.
  set (sh := (k - 52)%Z) in *.
  assert (Hsh : (0 < 2 ^ sh)%Z) by (apply Z.pow_pos_nonneg; lia).
  set (m := (z / 2 ^ sh)%Z).
  assert (Hm : (2 ^ 52 <= m)%Z).
  { unfold m. apply Z.div_le_lower_bound; [lia|].
    rewrite <- Z.pow_add_r by lia. by replace (sh + 52)%Z with k by lia. }
  match goal with |- context [if ?c then (m + 1)%Z else m] =>
    set (m' := if c then (m + 1)%Z else m);
    assert (Hm' : (m <= m')%Z) by (unfold m'; destruct c; lia) end.
  exists (m' * 2 ^ sh)%Z. split.
  - replace k with (52 + sh)%Z at 1 by lia. rewrite Z.pow_add_r by lia.
    apply Z.mul_le_mono_nonneg_r; lia.
  - destruct (2 ^ 1024 <=? m' * 2 ^ sh)%Z; [|by rewrite Z.sgn_pos, Z.mul_1_l by lia].
    f_equal. apply Z.ltb_ge. lia.
Qed.

Lemma round_double_ge z :
  (2 ^ 53 <= z)%Z ->
  (exists r, round_double z = JInt r /\ (2 ^ 53 <= r)%Z) \/ round_double z = JInf false.
Proof.
  intros Hz. destruct (Z.eq_dec z (2 ^ 53)%Z) as [->|Hne].
  - left. exists (2 ^ 53)%Z. split; [|lia]. apply round_double_exact. lia.
  - destruct (round_double_above z) as (r & Hr & ->); [lia|].
    assert (Hk : (53 <= Z.log2 z)%Z) by (apply Z.log2_le_pow2; lia).
    assert ((2 ^ 53 <= 2 ^ Z.log2 z)%Z) by (apply Z.pow_le_mono_r; lia).
    destruct (2 ^ 1024 <=? r)%Z; [by right|left; exists r; split; [done|lia]].
Qed.


Lemma round_double_opp z : round_double (- z) = js_neg (round_double z).
Proof.
  unfold round_double. cbv zeta. rewrite Z.abs_opp.
  destruct (Z.abs z <=? 2 ^ 53)%Z eqn:E1; [done|]. apply Z.leb_gt in E1.
  destruct (2 ^ 1024 <=? _)%Z; simpl.
  - f_equal. destruct (Z.ltb_spec z 0), (Z.ltb_spec (- z) 0); simpl; lia.
  - f_equal. rewrite Z.sgn_opp. lia.
Qed.

Lemma round_double_pos z :
  (1 <= z)%Z ->
  (exists r, round_double z = JInt r /\ (Z.min z (2 ^ 53) <= r)%Z) \/ round_double z = JInf false.
Proof.
  intros Hz. destruct (Z.le_gt_cases z (2 ^ 53)%Z).
  - left. exists z. rewrite round_double_exact by lia. split; [done|lia].
  - destruct (round_double_ge z) as [(r & Hr & Hr2)|Hr]; [lia| |by right].
    left. exists r. split; [done|lia].
Qed.

Lemma round_double_nonpos z :
  (z <= 0)%Z ->
  (exists r, round_double z = JInt r /\ (r <= 0)%Z) \/ round_double z = JInf true.
Proof.
  intros Hz. destruct (Z.eq_dec z 0%Z) as [->|Hne].
  - left. exists 0%Z. by rewrite round_double_exact.
  - replace z with (- (- z))%Z by lia. rewrite round_double_opp.
    destruct (round_double_pos (- z)) as [(r & -> & Hr)| ->]; [lia| |by right].
    left. exists (- r)%Z. split; [done|lia].
Qed.

(** *** The effective page and limit: NaN, +Infinity or an integer >= 1 *)






Lemma js_slice_nan_start {A} (xs : list A) e : js_slice xs JNaN (js_add JNaN e) = [].
Proof. unfold js_slice, slice_index. simpl. by rewrite Z.sub_diag. Qed.








(* ------------------------------------------------------------------ *)
(** ** Stats *)

Lemma inv_ts_event st e :
  inv st -> In e (st_events st) ->
  Forall (fun a => ts_ok (att_checkedInAt a)) (arr_get st (ev_attendees e)).
Proof.
  intros (_ & _ & _ & Hts) Hin.
  apply list_elem_of_In, list_elem_of_lookup in Hin as [i Hi].
  eapply Forall_lookup_1; [exact Hts|]. unfold view. by rewrite list_lookup_fmap, Hi.
Qed.

(** With every timestamp null or non-empty, counting truthy timestamps
    counts the non-null ones. *)
Lemma build_stats_ok st e :
  Forall (fun a => ts_ok (att_checkedInAt a)) (arr_get st (ev_attendees e)) ->
  stats_ok (arr_get st (ev_attendees e)) (build_stats st e).
Proof.
  intros Hts. unfold stats_ok, build_stats. simpl. split; [done|split; [|lia]].
  f_equal. f_equal. apply filter_ext_in. intros a Ha.
  rewrite List.Forall_forall in Hts. specialize (Hts a Ha).
  destruct (att_checkedInAt a) as [x|]; simpl in *; unfold str_truthy;
    repeat case_bool_decide; simpl; try done; exfalso; naive_solver.
Qed.

Section StatsClaims.
Context `{Unicode}.

(** C8: in every reachable store, the stats of every event, as returned
    by [GET /events] and by [GET /events/:id], count the attendees, the
    attendees with a non-null timestamp, and satisfy
    checkedIn + absent = total. *)
Theorem stats_correct (st : store) :
  reachable st ->
  (exists sums, (run_op st ListEvents).1 = REvents sums /\
     Forall2 (fun e s => sum_id s = ev_id e /\
                         stats_ok (arr_get st (ev_attendees e)) (sum_stats s))
             (st_events st) sums) /\
  (forall eid e, find_event (st_events st) eid = Some e ->
     exists s, (run_op st (GetEvent eid)).1 = REvent s /\ sum_id s = ev_id e /\
               stats_ok (arr_get st (ev_attendees e)) (sum_stats s)).
Proof.
  intros Hr. pose proof (reachable_inv st Hr) as Hinv. split.
  - exists (List.map (summary st) (st_events st)). split; [done|].
    assert (Hall : forall e, In e (st_events st) ->
                     Forall (fun a => ts_ok (att_checkedInAt a)) (arr_get st (ev_attendees e)))
      by (intros e; by apply inv_ts_event).
    induction (st_events st) as [|e evs IH]; simpl; constructor.
    + split; [done|]. apply build_stats_ok, Hall. by left.
    + apply IH. intros e' He'. apply Hall. by right.
  - intros eid e Hf. simpl. rewrite Hf. eexists. split; [done|]. split; [done|].
    apply build_stats_ok, inv_ts_event; [done|].
    apply find_event_Some in Hf as (i & Hi & _).
    apply list_elem_of_In, list_elem_of_lookup. eauto.
Qed.
End StatsClaims.

(* ------------------------------------------------------------------ *)
(** ** Search, sorting and pagination *)

Section ListClaims.
Context `{Unicode}.


(** C5: the search keeps exactly the attendees whose normalised name,
    email and document joined by spaces contain the normalised search
    text, and the answer depends on the search text only through its
    normalisation. *)
Theorem search_semantics :
  (forall st eid q ev, find_event (st_events st) eid = Some ev ->
     (forall a, In a (matches_sorted st ev (search_norm q)) <->
                In a (arr_get st (ev_attendees ev)) /\
                includes (normalize (att_name a) ++ [32%N] ++ normalize (att_email a)
                          ++ [32%N] ++ normalize (att_document a)) (search_norm q) = true) /\
     exists start end_ st',
       run_op st (ListAttendees eid q) =
       (RPage (js_slice (matches_sorted st ev (search_norm q)) start end_)
              (query_int (q_page q) (u "1")) (query_int (q_limit q) (u "20"))
              (length (matches_sorted st ev (search_norm q))), st')) /\
  (forall st eid s1 s2 pg lm, normalize s1 = normalize s2 ->
     run_op st (ListAttendees eid (mkQuery (Some (QStr s1)) pg lm)) =
     run_op st (ListAttendees eid (mkQuery (Some (QStr s2)) pg lm))).
Proof.
  split.
  - intros st eid q ev Hev. split.
    + intros a. unfold matches_sorted. rewrite <- list_elem_of_In.
      rewrite (sort_by_perm cmp_name), list_elem_of_In, List.filter_In. done.
    + pose proof (list_attendees_spec st eid q ev Hev) as Hspec. simpl in Hspec |- *.
      destruct (list_attendees st eid q) as [r st'] eqn:Hl. simpl in Hspec. subst r. eauto.
  - intros st eid s1 s2 pg lm Hn. simpl. unfold list_attendees. cbn [q_search q_page q_limit].
    rewrite !search_q_str, Hn. reflexivity.
Qed.

(** C6: with a comparator that is antisymmetric, as [localeCompare] is,
    every page is in non-decreasing order of normalised name. *)
Theorem attendees_sorted :
  (forall x y, locale_compare x y = CompOpp (locale_compare y x)) ->
  forall st eid q data page limit tot st',
    run_op st (ListAttendees eid q) = (RPage data page limit tot, st') ->
    ordered cmp_name data.
Proof.
  intros Hanti st eid q data page limit tot st' Hr. simpl in Hr.
  destruct (find_event (st_events st) eid) as [ev|] eqn:Hev.
  - pose proof (list_attendees_spec st eid q ev Hev) as Hspec. simpl in Hspec.
    rewrite Hr in Hspec. simpl in Hspec. injection Hspec as -> _ _ _.
    apply ordered_js_slice, sort_by_ordered. intros a b. apply Hanti.
  - unfold list_attendees in Hr. rewrite Hev in Hr. discriminate.
Qed.
End ListClaims.

(* ------------------------------------------------------------------ *)
(** ** Check-in *)

Section CheckinClaims.
Context `{Unicode}.

(** C1: once an attendee of a reachable store has a check-in timestamp,
    every later store keeps that attendee unchanged, and every check-in
    call for it answers 409 with the original timestamp and leaves the
    store as it is. *)
Theorem checkin_monotone (st : store) (i j : nat) (ev : event) (a : attendee) (t : str) :
  reachable st -> st_events st !! i = Some ev ->
  attendee_at st i j = Some a -> att_checkedInAt a = Some t ->
  forall st', rtc step st st' ->
    attendee_at st' i j = Some a /\
    forall body now, body_attendee_id body = Some (JStr (att_id a)) ->
      run_op st' (Checkin (ev_id ev) body now) = (RConflict (Some (JStr (att_id a))) (Some t), st').
Proof.
  intros Hr Hev Ha Ht st' Hrtc. pose proof (reachable_inv st Hr) as Hinv.
  assert (Htr : ts_truthy (att_checkedInAt a) = true).
  { destruct Hinv as (_ & _ & _ & Hts). unfold attendee_at in Ha.
    destruct (view st !! i) as [arr|] eqn:Hi; simpl in Ha; [|done].
    pose proof (Forall_lookup_1 _ _ _ _ (Forall_lookup_1 _ _ _ _ Hts Hi) Ha) as Hok.
    cbv beta in Hok. rewrite Ht in Hok |- *. simpl in Hok |- *. unfold str_truthy.
    by rewrite bool_decide_eq_false_2. }
  clear Hr. revert Hinv Hev Ha. induction Hrtc as [x|x y z Hxy _ IH]; intros Hinv Hev Ha.
  - split; [done|]. intros body now Hb. simpl. rewrite <- Ht.
    by eapply checkin_conflict.
  - pose proof (inv_step x y Hinv Hxy) as Hinv'. apply IH; [exact Hinv'| |].
    + rewrite (proj1 Hinv'), <- (proj1 Hinv). exact Hev.
    + exact (step_keeps_checked x y i j a Hinv Hxy Ha Htr).
Qed.
(** C2 (as amended): a check-in whose attendee identifier is missing or
    falsy fails with 400 when the event exists; the event lookup comes
    first, so an unknown event gives 404.  The store is unchanged. *)
Theorem checkin_missing_attendee (st : store) (eid : str) (body : option jval) (now : str) :
  truthy (body_attendee_id body) = false ->
  run_op st (Checkin eid body now) =
  (match find_event (st_events st) eid with
   | Some _ => RBadRequest
   | None => RNotFound
   end, st).
Proof.
  intros Hf. simpl. unfold checkin.
  destruct (find_event _ _); [|done]. by rewrite Hf.
Qed.

(** C10: on an existing event, a body that is absent or not an object
    (null, a primitive, an array) does not crash the handler: the
    identifier is read as undefined and the answer is 400, with the
    store unchanged. *)
Theorem checkin_body_not_object (st : store) (eid : str) (ev : event)
    (body : option jval) (now : str) :
  find_event (st_events st) eid = Some ev ->
  (forall fs, body <> Some (JObj fs)) ->
  run_op st (Checkin eid body now) = (RBadRequest, st).
Proof.
  intros Hev Hnobj.
  assert (Hb : body_attendee_id body = None).
  { unfold body_attendee_id. cbv zeta.
    destruct body as [v|]; [|done].
    destruct (jtruthy v); [|done].
    destruct v as [| | | | |fs]; [..|exfalso; by apply (Hnobj fs)]; done. }
  simpl. unfold checkin. by rewrite Hev, Hb.
Qed.

(** C9: check-in is the only route that changes the store.  The query
    routes leave the events and every attendee array they reference
    unchanged (the handlers only allocate fresh temporaries); a check-in
    either changes nothing, or is a 201 that replaces the target attendee
    (the one of event [eid] whose id is the body's [attendeeId]) by the
    same record with its timestamp set, all else unchanged. *)
Theorem only_checkin_mutates (st : store) :
  reachable st ->
  (forall o, is_query o ->
     st_events (run_op st o).2 = st_events st /\ view (run_op st o).2 = view st) /\
  (forall eid body now r st', run_op st (Checkin eid body now) = (r, st') ->
     (st' = st /\ forall aid t, r <> RCreated aid t) \/
     exists i j ev arr a,
       st_events st !! i = Some ev /\ ev_id ev = eid /\
       view st !! i = Some arr /\ arr !! j = Some a /\
       body_attendee_id body = Some (JStr (att_id a)) /\
       r = RCreated (Some (JStr (att_id a))) (Some now) /\
       st_events st' = st_events st /\
       view st' = <[i := <[j := set_checkedInAt a now]> arr]> (view st)).
Proof.
  intros Hr. destruct (inv_locs st (reachable_inv st Hr)) as [Hnd Hsmall]. split.
  - intros o Hq. destruct (query_frame st o Hsmall Hq) as (? & _ & ?). done.
  - intros eid body now r st' Hc. simpl in Hc.
    destruct (checkin_view st eid body now r st' Hnd Hc)
      as [?|(i & j & ev & arr & a & Hi & Hid & Ha & Hj & Hb & _ & Hrr & He & _ & Hv)];
      [by left|right].
    exists i, j, ev, arr, a. rewrite Hrr, Hb. done.
Qed.
End CheckinClaims.

(* ------------------------------------------------------------------ *)
(** ** Decimal page numbers and the concatenation of pages *)

Lemma dec_digits_spec fuel n :
  (N.to_nat n < fuel)%nat ->
  dec_digits fuel n <> [] /\ Forall (fun c => is_digit c = true) (dec_digits fuel n) /\
  digits_value (dec_digits fuel n) = Z.of_N n.
Proof.
  revert n; induction fuel as [|f IH]; intros n Hn; [lia|]. simpl.
  destruct (N.ltb_spec n 10).
  - split; [done|]. split.
    + constructor; [|constructor]. unfold is_digit. apply andb_true_intro.
      split; apply N.leb_le; lia.
    + unfold digits_value. simpl. lia.
  - destruct (IH (n / 10)%N) as (Hne & Hd & Hv).
    { assert (n / 10 < n)%N by (apply N.div_lt; lia). lia. }
    split; [|split].
    + intros Hnil. apply app_eq_nil in Hnil as [_ Hnil]. discriminate.
    + apply Forall_app. split; [done|]. constructor; [|constructor].
      unfold is_digit. apply andb_true_intro.
      pose proof (N.mod_lt n 10 ltac:(lia)). set (m := (n mod 10)%N) in *.
      split; apply N.leb_le; lia.
    + unfold digits_value in *. rewrite fold_left_app, Hv. simpl.
      pose proof (N.div_mod n 10 ltac:(lia)). pose proof (N.mod_lt n 10 ltac:(lia)).
      set (m := (n mod 10)%N) in *. set (q := (n / 10)%N) in *. lia.
Qed.

Lemma digit_not_ws c : is_digit c = true -> is_ws c = false.
Proof.
  intros Hd. apply andb_prop in Hd as [H1 H2]. apply N.leb_le in H1, H2.
  unfold is_ws. rewrite bool_decide_eq_false_2.
  2:{ intros Hin. repeat (apply elem_of_cons in Hin as [->|Hin]; [lia|]).
      by apply not_elem_of_nil in Hin. }
  simpl. destruct (N.leb_spec 8192 c); [lia|reflexivity].
Qed.







Lemma lex_compare_antisym x y : lex_compare x y = CompOpp (lex_compare y x).
Proof.
  revert y; induction x as [|c x IH]; intros [|d y]; simpl; try done.
  rewrite (N.compare_antisym c d). destruct (N.compare c d); simpl; auto.
Qed.

Section PageLemmas.
Context `{Unicode}.



End PageLemmas.

Section PageClaims.
Context `{Unicode}.

End PageClaims.



(** C3 fails for a non-numeric page: [parseInt("abc", 10)] is NaN and
    [Math.max(NaN, 1)] is NaN, so the effective page is NaN (sent as
    [null]) and the data array is empty. *)
Theorem page_not_numeric_nan :
  query_int (Some (QStr (u "abc"))) (u "1") = JNaN /\
  (run_op seed (ListAttendees (u "evt_123") (mkQuery None (Some (QStr (u "abc"))) None))).1 =
  RPage [] JNaN (JInt 20) 3.
Proof. vm_compute. split; reflexivity. Qed.

Lemma checkin_monotone_witness :
  attendee_at seed 0 2 = Some (seed_attendees_123 !!! 2%nat) /\
  run_op seed (Checkin (ev_id (seed_events !!! 0%nat)) (body_of (u "att_003")) (u "T")) =
  (RConflict (Some (JStr (att_id (seed_attendees_123 !!! 2%nat))))
             (Some (u "2025-09-15T09:32:12-03:00")), seed).
Proof.
  assert (Hm := checkin_monotone seed 0 2 (seed_events !!! 0%nat) (seed_attendees_123 !!! 2%nat)
                 (u "2025-09-15T09:32:12-03:00") reach_seed).
  assert (E1 : st_events seed !! 0%nat = Some (seed_events !!! 0%nat)) by (vm_compute; reflexivity).
  assert (E2 : attendee_at seed 0 2 = Some (seed_attendees_123 !!! 2%nat)) by (vm_compute; reflexivity).
  assert (E3 : att_checkedInAt (seed_attendees_123 !!! 2%nat) = Some (u "2025-09-15T09:32:12-03:00"))
    by (vm_compute; reflexivity).
  destruct (Hm E1 E2 E3 seed (rtc_refl _ _)) as [H1 H2].
  split; [exact H1|]. apply H2. reflexivity.
Defined.

Lemma checkin_missing_attendee_witness :
  truthy (body_attendee_id None) = false /\
  run_op seed (Checkin (u "evt_123") None (u "T")) = (RBadRequest, seed).
Proof.
  split; [reflexivity|].
  rewrite (checkin_missing_attendee seed (u "evt_123") None (u "T") eq_refl).
  vm_compute. reflexivity.
Defined.

(** C2 as stated fails: with no attendee identifier and an unknown event
    the answer is 404, not 400. *)
Lemma checkin_missing_attendee_unknown_event :
  body_attendee_id (Some (JObj [])) = None /\
  (run_op seed (Checkin (u "does_not_exist") (Some (JObj [])) (u "T"))).1 = RNotFound /\
  (run_op seed (Checkin (u "does_not_exist") (Some (JObj [])) (u "T"))).1 <> RBadRequest.
Proof. vm_compute. split; [done|split; [done|discriminate]]. Qed.

Lemma checkin_body_not_object_witness :
  run_op seed (Checkin (u "evt_123") None (u "T")) = (RBadRequest, seed).
Proof.
  apply (checkin_body_not_object seed (u "evt_123") (seed_events !!! 0%nat) None (u "T")).
  - vm_compute. reflexivity.
  - intros fs. discriminate.
Defined.

Lemma only_checkin_mutates_witness :
  view (run_op seed (ListAttendees (u "evt_123") q_default)).2 = view seed.
Proof.
  destruct (only_checkin_mutates seed reach_seed) as [Hq _].
  apply (Hq (ListAttendees (u "evt_123") q_default)). exact I.
Defined.

Lemma stats_correct_witness :
  (run_op seed ListEvents).1 =
  REvents (List.map (summary seed) seed_events) /\
  stats_ok seed_attendees_123 (mkStats 3 1 2).
Proof.
  destruct (stats_correct seed reach_seed) as [(sums & Hs & Hall) _].
  assert (Hsums : sums = List.map (summary seed) seed_events) by (change ((run_op seed ListEvents).1) with (REvents (List.map (summary seed) seed_events)) in Hs;
        congruence).
  subst sums. split; [exact Hs|].
  inversion Hall as [|e s evs ss [_ Hok] _ He Hss]. exact Hok.
Defined.


Lemma search_semantics_witness :
  run_op seed (ListAttendees (u "evt_123") (mkQuery (Some (QStr (u "Jos" ++ [233%N]))) None None)) =
  run_op seed (ListAttendees (u "evt_123") (mkQuery (Some (QStr (u "jose"))) None None)).
Proof.
  assert (Hn : normalize (u "Jos" ++ [233%N]) = normalize (u "jose")) by (vm_compute; reflexivity).
  exact (proj2 search_semantics seed (u "evt_123") _ _ None None Hn).
Defined.

Lemma attendees_sorted_witness :
  ordered cmp_name (page_data (run_op seed (ListAttendees (u "evt_123") q_default)).1).
Proof.
  assert (Hr : run_op seed (ListAttendees (u "evt_123") q_default) =
               (RPage (page_data (run_op seed (ListAttendees (u "evt_123") q_default)).1)
                      (JInt 1) (JInt 20) 3,
                (run_op seed (ListAttendees (u "evt_123") q_default)).2))
    by (vm_compute; reflexivity).
  exact (attendees_sorted lex_compare_antisym seed (u "evt_123") q_default _ _ _ _ _ Hr).
Defined.


(* ------------------------------------------------------------------ *)
(** ** Further properties of the code *)

Lemma find_event_None evs eid : find_event evs eid = None <-> eid ∉ ev_id <$> evs.
Proof.
  unfold find_event. rewrite fmap_None, list_find_None, Forall_forall, list_elem_of_fmap.
  naive_solver.
Qed.

Lemma bearer_nonempty t : u "Bearer " ++ t <> [].
Proof. discriminate. Qed.

(** The bearer-token middleware. *)

(** X: without a configured token (variable unset or empty) every request
    reaches its route, whatever its Authorization header. *)
Theorem auth_open `{Unicode} env authorization st o :
  env = None \/ env = Some [] ->
  app_request (env_TOKEN env) authorization st o = (RHandled (run_op st o).1, (run_op st o).2).
Proof.
  intros [-> | ->]; unfold app_request; simpl; by destruct (run_op st o).
Qed.

(** X: with a configured token [t], a request reaches its route exactly
    when its Authorization header is [Bearer t]; any other request,
    including one without the header, is answered 401 and changes
    nothing. *)
Theorem auth_token `{Unicode} t authorization st o :
  t <> [] ->
  app_request (env_TOKEN (Some t)) authorization st o =
  if bool_decide (authorization = Some (u "Bearer " ++ t))
  then (RHandled (run_op st o).1, (run_op st o).2)
  else (RUnauthorized, st).
Proof.
  intros Ht. unfold app_request, env_TOKEN, authMiddleware, str_truthy.
  assert (Hb : bool_decide (t = []) = false) by (by apply bool_decide_eq_false_2).
  rewrite Hb. cbn [negb]. rewrite Hb. cbn [negb].
  destruct (run_op st o) as [r st']. cbn [fst snd].
  destruct authorization as [h|].
  - rewrite (bool_decide_ext (Some h = Some (u "Bearer " ++ t)) (h = u "Bearer " ++ t))
      by (split; [by intros [= ->] | by intros ->]).
    destruct (bool_decide (h = [])) eqn:Hh; cbn [negb].
    + apply bool_decide_eq_true in Hh. subst h. reflexivity.
    + reflexivity.
  - rewrite !bool_decide_eq_false_2; [done|discriminate|].
    intros Heq. by eapply bearer_nonempty.
Qed.

(** The event routes. *)

(** X: the three routes that take an event identifier answer 404, and
    change nothing, exactly when no event has that identifier. *)
Theorem unknown_event_routes `{Unicode} st eid q body now :
  (eid ∉ ev_id <$> st_events st ->
     run_op st (GetEvent eid) = (RNotFound, st) /\
     run_op st (ListAttendees eid q) = (RNotFound, st) /\
     run_op st (Checkin eid body now) = (RNotFound, st)) /\
  (eid ∈ ev_id <$> st_events st ->
     (run_op st (GetEvent eid)).1 <> RNotFound /\
     (run_op st (ListAttendees eid q)).1 <> RNotFound /\
     (run_op st (Checkin eid body now)).1 <> RNotFound).
Proof.
  split.
  - intros Hn. apply find_event_None in Hn. cbn [run_op].
    unfold list_attendees, checkin. rewrite Hn. done.
  - intros Hin. destruct (find_event (st_events st) eid) as [ev|] eqn:Hf.
    2:{ apply find_event_None in Hf. done. }
    cbn [run_op]. rewrite Hf. cbn [fst]. split; [discriminate|split].
    + unfold list_attendees. rewrite Hf. repeat case_match; cbn [fst]; discriminate.
    + unfold checkin. rewrite Hf. repeat case_match; cbn [fst]; discriminate.
Qed.

(** X: in every reachable store, [GET /events/:id] for the identifier of
    an entry of [GET /events] answers exactly that entry. *)
Theorem get_event_agrees_with_list `{Unicode} st sums i s :
  reachable st ->
  (run_op st ListEvents).1 = REvents sums -> sums !! i = Some s ->
  run_op st (GetEvent (sum_id s)) = (REvent s, st).
Proof.
  intros Hr Hl Hi. apply reachable_inv in Hr as Hinv. destruct Hinv as (Hev & _).
  cbn [run_op fst] in Hl. injection Hl as <-.
  rewrite list_lookup_fmap in Hi. destruct (st_events st !! i) as [e|] eqn:He; [|done].
  injection Hi as <-. cbn [run_op].
  assert (Hf : find_event (st_events st) (sum_id (summary st e)) = Some e).
  { unfold find_event. rewrite (list_find_unique _ ev_id (st_events st) i e); [done| |done|].
    - rewrite Hev. apply seed_event_ids_nodup.
    - intros y. done. }
  by rewrite Hf.
Qed.

(** Query parameters: [Math.max(parseInt(v || d, 10), 1)]. *)

Lemma dec_facts n :
  dec n <> [] /\ Forall (fun c => is_digit c = true) (dec n) /\ digits_value (dec n) = Z.of_nat n.
Proof.
  destruct (dec_digits_spec (S n) (N.of_nat n)) as (Hne & Hd & Hv); [lia|].
  unfold dec. split; [done|split; [done|lia]].
Qed.

Lemma drop_ws_app w y : Forall (fun c => is_ws c = true) w -> drop_ws (w ++ y) = drop_ws y.
Proof. intros Hw. induction Hw as [|c w0 Hc _ IH]; [done|]. cbn [app drop_ws]. by rewrite Hc. Qed.

Lemma take_digits_app ds x :
  Forall (fun c => is_digit c = true) ds ->
  (forall c x', x = c :: x' -> is_digit c = false) ->
  take_digits (ds ++ x) = ds.
Proof.
  intros Hd Hx. induction Hd as [|c ds Hc _ IH].
  - destruct x as [|c x']; [done|]. cbn [app take_digits]. by rewrite (Hx c x' eq_refl).
  - cbn [app take_digits]. by rewrite Hc, IH.
Qed.

(** [parseInt(w + "n" + x, 10)] and [parseInt(w + "-n" + x, 10)] for
    leading white space [w] and a rest [x] that does not start with a
    digit. *)
Lemma parseInt10_prefix w n x :
  Forall (fun c => is_ws c = true) w ->
  (forall c x', x = c :: x' -> is_digit c = false) ->
  parseInt10 (w ++ dec n ++ x) = round_double (Z.of_nat n) /\
  parseInt10 (w ++ [45%N] ++ dec n ++ x) = round_double (- Z.of_nat n).
Proof.
  intros Hw Hx. destruct (dec_facts n) as (Hne & Hd & Hv).
  assert (Ht : take_digits (dec n ++ x) = dec n) by (by apply take_digits_app).
  unfold parseInt10. rewrite !drop_ws_app by done.
  destruct (dec n) as [|c r]; [done|].
  pose proof (Forall_inv Hd) as Hc. cbn beta in Hc.
  assert (Hc45 : (c =? 45)%N = false).
  { apply andb_prop in Hc as [H1 _]. apply N.leb_le in H1. apply N.eqb_neq. lia. }
  assert (Hc43 : (c =? 43)%N = false).
  { apply andb_prop in Hc as [H1 _]. apply N.leb_le in H1. apply N.eqb_neq. lia. }
  cbn [app drop_ws] in *. split.
  - rewrite (digit_not_ws c Hc), Hc45, Hc43. cbv beta iota zeta.
    rewrite Ht. cbv beta iota. rewrite Hv. f_equal. lia.
  - rewrite !drop_ws_app by done. cbn [app drop_ws]. change (is_ws 45%N) with false. cbv beta iota zeta delta [N.eqb Pos.eqb]. cbv beta iota zeta.
    rewrite Ht. cbv beta iota. rewrite Hv. f_equal; lia.
Qed.

Lemma str_nonempty_mid (w y x : str) : y <> [] -> w ++ y ++ x <> [].
Proof.
  intros Hy Heq. apply app_eq_nil in Heq as [_ Heq]. apply app_eq_nil in Heq as [Heq _].
  done.
Qed.

(** X: a page or limit value made of optional white space, an optional
    minus sign and the decimal digits of [n], followed by anything that
    does not start with a digit, is read as [n], clamped to at least 1,
    when n <= 2^53 (so that the double is exact): ["2abc"] and [" 7"]
    give 2 and 7, ["0"] gives 1; with a minus sign it gives 1 for every
    n, however large. *)
Theorem query_int_numeric_prefix w n x d :
  Forall (fun c => is_ws c = true) w ->
  (forall c x', x = c :: x' -> is_digit c = false) ->
  ((Z.of_nat n <= 2 ^ 53)%Z ->
   query_int (Some (QStr (w ++ dec n ++ x))) d = JInt (Z.max (Z.of_nat n) 1)) /\
  query_int (Some (QStr (w ++ [45%N] ++ dec n ++ x))) d = JInt 1.
Proof.
  intros Hw Hx. destruct (parseInt10_prefix w n x Hw Hx) as [Hp Hm].
  destruct (dec_facts n) as (Hne & _ & _).
  unfold query_int, q_or, str_truthy.
  rewrite (bool_decide_eq_false_2 (w ++ dec n ++ x = [])) by (by apply str_nonempty_mid).
  rewrite (bool_decide_eq_false_2 (w ++ [45%N] ++ dec n ++ x = []))
    by (apply str_nonempty_mid; discriminate).
  cbn [negb js_string]. rewrite Hp, Hm. split.
  - intros Hn. rewrite round_double_exact by lia. reflexivity.
  - destruct (round_double_nonpos (- Z.of_nat n)) as [(r & -> & Hr)| ->]; [lia| |done].
    cbn. f_equal. lia.
Qed.

(** X: a repeated parameter ([?page=2&page=9]) arrives as an array;
    [String] joins it with commas and [parseInt] reads the first value
    (exactly, for a value n <= 2^53). *)
Theorem query_int_repeated n xs d :
  (Z.of_nat n <= 2 ^ 53)%Z ->
  query_int (Some (QArr (dec n :: xs))) d = JInt (Z.max (Z.of_nat n) 1).
Proof.
  intros Hn. unfold query_int, q_or. cbn [js_string join].
  assert (Hx : forall c x', List.concat (List.map (fun y => u ","%string ++ y) xs) = c :: x' ->
                            is_digit c = false).
  { intros c x' Hcx. destruct xs as [|y ys]; [discriminate|].
    assert (Hcomma : u ","%string = [44%N]) by reflexivity.
    cbn [List.map List.concat] in Hcx. rewrite Hcomma in Hcx. cbn [app] in Hcx.
    injection Hcx as <- _. reflexivity. }
  rewrite <- (app_nil_l (dec n ++ _)).
  rewrite (proj1 (parseInt10_prefix [] n _ (List.Forall_nil _) Hx)).
  rewrite round_double_exact by lia. reflexivity.
Qed.

Lemma query_int_object d : query_int (Some QObj) d = JNaN.
Proof. reflexivity. Qed.


Section SearchExtras.
Context `{Unicode}.

(** X: a page or limit given as a nested object ([?page[a]=1]) becomes
    ["[object Object]"], which [parseInt] reads as NaN: the data array is
    empty and the NaN is echoed. *)
Theorem attendees_object_param st eid q ev :
  find_event (st_events st) eid = Some ev ->
  q_page q = Some QObj \/ q_limit q = Some QObj ->
  exists page limit st',
    run_op st (ListAttendees eid q) =
    (RPage [] page limit (length (matches_sorted st ev (search_norm q))), st') /\
    (page = JNaN \/ limit = JNaN).
Proof.
  intros Hev Hobj. pose proof (list_attendees_spec st eid q ev Hev) as Hspec.
  cbv zeta in Hspec. cbn [run_op].
  destruct (list_attendees st eid q) as [r st'] eqn:E. cbn [fst] in Hspec. subst r.
  eexists _, _, st'. split; [f_equal; f_equal|].
  - destruct Hobj as [Hp|Hl].
    + rewrite Hp, query_int_object. apply js_slice_nan_start.
    + rewrite Hl, query_int_object.
      destruct (js_sub (query_int (q_page q) (u "1")) (JInt 1)); apply js_slice_nan_start.
  - destruct Hobj as [Hp|Hl]; [left; rewrite Hp | right; rewrite Hl]; apply query_int_object.
Qed.

(** X: when the search text is absent or normalises to the empty string
    the list is not filtered: the total is the number of attendees of the
    event and the data is a slice of all of them sorted by name. *)
Theorem attendees_empty_search st eid q ev :
  find_event (st_events st) eid = Some ev ->
  search_norm q = [] ->
  let page := query_int (q_page q) (u "1") in
  let limit := query_int (q_limit q) (u "20") in
  let start := js_mul (js_sub page (JInt 1)) limit in
  let atts := arr_get st (ev_attendees ev) in
  exists st',
    run_op st (ListAttendees eid q) =
    (RPage (js_slice (sort_by cmp_name atts) start (js_add start limit)) page limit
           (length atts), st').
Proof.
  intros Hev Hs page limit start atts.
  pose proof (list_attendees_spec st eid q ev Hev) as Hspec. cbv zeta in Hspec.
  assert (Hm : matches_sorted st ev (search_norm q) = sort_by cmp_name atts).
  { unfold matches_sorted. rewrite Hs.
    rewrite (List.filter_ext_in _ (fun _ => true)) by (intros a _; apply includes_nil).
    by rewrite List.filter_true. }
  rewrite Hm in Hspec. cbn [run_op].
  destruct (list_attendees st eid q) as [r st'] eqn:E. cbn [fst] in Hspec. subst r.
  exists st'. rewrite (Permutation_length (sort_by_perm cmp_name atts)). reflexivity.
Qed.
End SearchExtras.

Lemma starts_with_iff x p : starts_with x p = true <-> exists b, x = p ++ b.
Proof.
  revert x; induction p as [|c p IH]; intros [|d x]; simpl.
  - split; [eauto|done].
  - split; [eauto|done].
  - split; [discriminate|]. by intros [b ?].
  - rewrite andb_true_iff, N.eqb_eq, IH. split.
    + intros [-> [b ->]]. by exists b.
    + intros [b [= -> ->]]. eauto.
Qed.

Lemma includes_iff x p : includes x p = true <-> exists a b, x = a ++ p ++ b.
Proof.
  induction x as [|d x IH].
  - change (includes [] p) with (starts_with [] p || false).
    rewrite orb_false_r, starts_with_iff. split.
    + intros [b Hb]. by exists [], b.
    + intros (a & b & Hab). symmetry in Hab. apply app_eq_nil in Hab as [_ Hab].
      by exists b.
  - change (includes (d :: x) p) with (starts_with (d :: x) p || includes x p).
    rewrite orb_true_iff, starts_with_iff, IH. split.
    + intros [[b Hb] | (a & b & Hab)].
      * by exists [], b.
      * exists (d :: a), b. by rewrite Hab.
    + intros ([|d' a] & b & Hab).
      * left. by exists b.
      * right. injection Hab as -> Hab. eauto.
Qed.

(** X: [String.prototype.includes] as used for the search is substring
    containment. *)
Theorem includes_substring x p : includes x p = true <-> exists a b, x = a ++ p ++ b.
Proof. apply includes_iff. Qed.

Lemma filter_length_mono {A} (f g : A -> bool) (l : list A) :
  (forall x, In x l -> f x = true -> g x = true) ->
  length (List.filter f l) <= length (List.filter g l).
Proof.
  induction l as [|a l IH]; intros Hfg; [done|]. simpl.
  assert (IH' : length (List.filter f l) <= length (List.filter g l))
    by (apply IH; intros x Hx; apply Hfg; by right).
  destruct (f a) eqn:Hf; [rewrite (Hfg a (or_introl eq_refl) Hf); simpl; lia|].
  destruct (g a); simpl; lia.
Qed.

Section SearchRefine.
Context `{Unicode}.

(** X: refining a search narrows its results: if the normalised text of
    [q2] contains the normalised text of [q1], every match of [q2] is a
    match of [q1] and the total of [q2] is at most the total of [q1]. *)
Theorem search_refine st eid ev q1 q2 :
  find_event (st_events st) eid = Some ev ->
  (exists a b, search_norm q2 = a ++ search_norm q1 ++ b) ->
  (forall x, In x (matches_sorted st ev (search_norm q2)) ->
             In x (matches_sorted st ev (search_norm q1))) /\
  (forall d1 p1 l1 t1 s1 d2 p2 l2 t2 s2,
     run_op st (ListAttendees eid q1) = (RPage d1 p1 l1 t1, s1) ->
     run_op st (ListAttendees eid q2) = (RPage d2 p2 l2 t2, s2) ->
     t2 <= t1).
Proof.
  intros Hev (a0 & b0 & Hsub).
  assert (Himp : forall x, includes (search_target x) (search_norm q2) = true ->
                           includes (search_target x) (search_norm q1) = true).
  { intros x. rewrite !includes_iff, Hsub. intros (a & b & ->).
    exists (a ++ a0), (b0 ++ b). by rewrite <- !app_assoc. }
  split.
  - intros x. unfold matches_sorted. rewrite <- !list_elem_of_In, !(sort_by_perm cmp_name).
    rewrite !list_elem_of_In, !List.filter_In. intros [Hx Hi]. eauto.
  - intros d1 p1 l1 t1 s1 d2 p2 l2 t2 s2 H1 H2.
    pose proof (list_attendees_spec st eid q1 ev Hev) as S1.
    pose proof (list_attendees_spec st eid q2 ev Hev) as S2.
    cbv zeta in S1, S2. cbn [run_op] in H1, H2. rewrite H1 in S1. rewrite H2 in S2.
    cbn [fst] in S1, S2. injection S1 as _ _ _ ->. injection S2 as _ _ _ ->.
    unfold matches_sorted. rewrite !(Permutation_length (sort_by_perm cmp_name _)).
    apply filter_length_mono. intros x _. apply Himp.
Qed.
End SearchRefine.

(** Check-in. *)

Lemma filter_insert_count {A} (f : A -> bool) (l : list A) j x y :
  l !! j = Some x -> f x = false -> f y = true ->
  length (List.filter f (<[j:=y]> l)) = S (length (List.filter f l)).
Proof.
  revert j; induction l as [|z l IH]; intros [|j] Hj Hx Hy; try done.
  - injection Hj as ->. simpl. by rewrite Hx, Hy.
  - simpl in Hj |- *. destruct (f z); simpl; by rewrite (IH j).
Qed.

Section CheckinExtras.
Context `{Unicode}.

(** X: an attendee identifier that is truthy but not a string (a number,
    [true], an object or an array) never equals an attendee's id under
    [===]: on an existing event the answer is 422 and nothing changes. *)
Theorem checkin_non_string_id st eid ev body now v :
  find_event (st_events st) eid = Some ev ->
  body_attendee_id body = Some v -> jtruthy v = true -> (forall x, v <> JStr x) ->
  run_op st (Checkin eid body now) = (RUnprocessable, st).
Proof.
  intros Hev Hb Ht Hns. cbn [run_op]. unfold checkin. rewrite Hev, Hb. cbn [truthy].
  rewrite Ht. cbn [negb].
  rewrite (proj2 (list_find_None _ _)); [done|].
  apply Forall_forall. intros a _. unfold js_eq_str.
  destruct v; try done. exfalso. by eapply Hns.
Qed.

(** X: a string identifier that is not the id of any attendee of the
    event (for instance the id of an attendee of another event) is
    answered 422 and nothing changes. *)
Theorem checkin_unknown_attendee st eid ev body now aid :
  find_event (st_events st) eid = Some ev ->
  body_attendee_id body = Some (JStr aid) -> aid <> [] ->
  aid ∉ att_id <$> arr_get st (ev_attendees ev) ->
  run_op st (Checkin eid body now) = (RUnprocessable, st).
Proof.
  intros Hev Hb Hne Hnot. cbn [run_op]. unfold checkin. rewrite Hev, Hb. cbn [truthy jtruthy].
  unfold str_truthy. rewrite bool_decide_eq_false_2 by done. cbn [negb].
  rewrite (proj2 (list_find_None _ _)); [done|].
  apply Forall_forall. intros a Ha. unfold js_eq_str. rewrite bool_decide_eq_true.
  intros <-. apply Hnot. apply list_elem_of_fmap. eauto.
Qed.

(** X: in a reachable store, a successful check-in (with a non-empty
    clock value) leaves the events in place, raises [checkedIn] of the
    event by one, lowers [absent] by one, keeps its [total], and leaves the
    stats of every other event as they were. *)
Theorem checkin_stats st eid body now aid t st' :
  reachable st -> now <> [] ->
  run_op st (Checkin eid body now) = (RCreated aid t, st') ->
  st_events st' = st_events st /\
  forall e, In e (st_events st) ->
    build_stats st' e =
    if bool_decide (ev_id e = eid)
    then mkStats (total (build_stats st e)) (checkedIn (build_stats st e) + 1)
                 (absent (build_stats st e) - 1)
    else build_stats st e.
Proof.
  intros Hr Hnow Hc. apply reachable_inv in Hr as Hinv.
  destruct (inv_locs st Hinv) as [Hnd _]. destruct Hinv as (Hevseed & _).
  cbn [run_op] in Hc.
  apply (checkin_view _ _ _ _ _ _ Hnd) in Hc
    as [[_ Hne]|(i & j & ev & arr & a & Hi & Hid & Hvi & Hj & Hb & Hts
                 & Hrc & Hevs & Hnext & Hview)];
    [exfalso; by apply (Hne aid t)|].
  split; [done|]. intros e He.
  apply list_elem_of_In, list_elem_of_lookup in He as [k Hk].
  assert (Hvk : view st !! k = Some (arr_get st (ev_attendees e)))
    by (unfold view; by rewrite list_lookup_fmap, Hk).
  assert (Hvk' : view st' !! k = Some (arr_get st' (ev_attendees e)))
    by (unfold view; by rewrite Hevs, list_lookup_fmap, Hk).
  destruct (decide (k = i)) as [->|Hki].
  - rewrite Hk in Hi. injection Hi as <-. rewrite bool_decide_eq_true_2 by done.
    rewrite Hview, list_lookup_insert_eq in Hvk' by (by eapply lookup_lt_Some).
    injection Hvk' as Harr'. rewrite Hvi in Hvk. injection Hvk as Harr.
    unfold build_stats. rewrite <- Harr', <- Harr, length_insert.
    rewrite (filter_insert_count _ arr j a); [|done|done|].
    + cbn [total checkedIn absent]. f_equal; lia.
    + cbn. unfold str_truthy. by rewrite bool_decide_eq_false_2.
  - rewrite bool_decide_eq_false_2.
    2:{ intros Heq. apply Hki. apply (NoDup_lookup (ev_id <$> st_events st) k i eid).
        - rewrite Hevseed. apply seed_event_ids_nodup.
        - rewrite list_lookup_fmap, Hk. simpl. by rewrite Heq.
        - rewrite list_lookup_fmap, Hi. simpl. by rewrite Hid. }
    rewrite Hview, list_lookup_insert_ne in Hvk' by congruence.
    rewrite Hvk in Hvk'. injection Hvk' as Heq. unfold build_stats. by rewrite Heq.
Qed.
End CheckinExtras.

Lemma auth_open_witness :
  app_request (env_TOKEN None) None seed ListEvents =
  (RHandled (run_op seed ListEvents).1, (run_op seed ListEvents).2).
Proof. apply auth_open. left. reflexivity. Defined.

Lemma auth_token_witness :
  app_request (env_TOKEN (Some (u "s3cret"))) (Some (u "Bearer s3cret")) seed ListEvents =
  (RHandled (run_op seed ListEvents).1, (run_op seed ListEvents).2) /\
  app_request (env_TOKEN (Some (u "s3cret"))) None seed ListEvents = (RUnauthorized, seed).
Proof.
  assert (Ht : u "s3cret" <> []) by discriminate.
  split; rewrite (auth_token (u "s3cret") _ seed ListEvents Ht); vm_compute; reflexivity.
Defined.

Lemma unknown_event_routes_witness :
  run_op seed (GetEvent (u "nope")) = (RNotFound, seed).
Proof.
  assert (Hn : u "nope" ∉ ev_id <$> st_events seed) by by_decide.
  exact (proj1 (proj1 (unknown_event_routes seed (u "nope") q_default None (u "T")) Hn)).
Defined.

Lemma get_event_agrees_with_list_witness :
  run_op seed (GetEvent (sum_id (summary seed (seed_events !!! 0%nat)))) =
  (REvent (summary seed (seed_events !!! 0%nat)), seed).
Proof.
  assert (Hl : (run_op seed ListEvents).1 = REvents (List.map (summary seed) seed_events))
    by reflexivity.
  assert (Hi : List.map (summary seed) seed_events !! 0%nat = Some (summary seed (seed_events !!! 0%nat)))
    by reflexivity.
  exact (get_event_agrees_with_list seed _ 0 _ reach_seed Hl Hi).
Defined.

Lemma query_int_numeric_prefix_witness :
  query_int (Some (QStr ([32%N] ++ dec 2 ++ u "abc"))) (u "1") = JInt 2 /\
  query_int (Some (QStr ([32%N] ++ [45%N] ++ dec 2 ++ u "abc"))) (u "1") = JInt 1.
Proof.
  assert (Hw : Forall (fun c => is_ws c = true) [32%N]) by (constructor; [reflexivity|constructor]).
  assert (Hx : forall c x', u "abc" = c :: x' -> is_digit c = false)
    by (intros c x' Hcx; injection Hcx as <- _; reflexivity).
  destruct (query_int_numeric_prefix [32%N] 2 (u "abc") (u "1") Hw Hx) as [H2 Hm].
  split; [exact (H2 ltac:(lia))|exact Hm].
Defined.

Lemma query_int_repeated_witness :
  query_int (Some (QArr [dec 2; dec 9])) (u "1") = JInt 2.
Proof. exact (query_int_repeated 2 [dec 2; dec 9] (u "1") ltac:(lia)). Defined.


Lemma attendees_object_param_witness :
  exists page limit st',
    run_op seed (ListAttendees (u "evt_123") (mkQuery None (Some QObj) None)) =
    (RPage [] page limit 3, st').
Proof.
  assert (E1 : find_event (st_events seed) (u "evt_123") = Some (seed_events !!! 0%nat))
    by (vm_compute; reflexivity).
  assert (Hp : q_page (mkQuery None (Some QObj) None) = Some QObj \/
               q_limit (mkQuery None (Some QObj) None) = Some QObj) by (left; reflexivity).
  destruct (attendees_object_param seed (u "evt_123") _ _ E1 Hp) as (page & limit & st' & Hr & _).
  exists page, limit, st'. rewrite Hr. vm_compute. reflexivity.
Defined.

Lemma attendees_empty_search_witness :
  exists st',
    run_op seed (ListAttendees (u "evt_123") q_default) =
    (RPage (js_slice (sort_by cmp_name seed_attendees_123) (JInt 0) (JInt 20)) (JInt 1) (JInt 20) 3,
     st').
Proof.
  assert (E1 : find_event (st_events seed) (u "evt_123") = Some (seed_events !!! 0%nat))
    by (vm_compute; reflexivity).
  assert (Hs : search_norm q_default = []) by (vm_compute; reflexivity).
  destruct (attendees_empty_search seed (u "evt_123") q_default _ E1 Hs) as [st' Hr].
  exists st'. rewrite Hr. vm_compute. reflexivity.
Defined.

Lemma search_refine_witness :
  In (seed_attendees_123 !!! 1%nat)
     (matches_sorted seed (seed_events !!! 0%nat)
        (search_norm (mkQuery (Some (QStr (u "s"))) None None))).
Proof.
  assert (E1 : find_event (st_events seed) (u "evt_123") = Some (seed_events !!! 0%nat))
    by (vm_compute; reflexivity).
  assert (Hsub : exists a b, search_norm (mkQuery (Some (QStr (u "silva"))) None None) =
                             a ++ search_norm (mkQuery (Some (QStr (u "s"))) None None) ++ b)
    by (exists [], (u "ilva"); vm_compute; reflexivity).
  assert (Hin : In (seed_attendees_123 !!! 1%nat)
                   (matches_sorted seed (seed_events !!! 0%nat)
                      (search_norm (mkQuery (Some (QStr (u "silva"))) None None))))
    by (vm_compute; left; reflexivity).
  exact (proj1 (search_refine seed (u "evt_123") _ _ _ E1 Hsub) _ Hin).
Defined.

Lemma checkin_non_string_id_witness :
  run_op seed (Checkin (u "evt_123") (Some (JObj [(u "attendeeId", JNum 1%Q)])) (u "T")) =
  (RUnprocessable, seed).
Proof.
  assert (E1 : find_event (st_events seed) (u "evt_123") = Some (seed_events !!! 0%nat))
    by (vm_compute; reflexivity).
  assert (Hb : body_attendee_id (Some (JObj [(u "attendeeId", JNum 1%Q)])) = Some (JNum 1%Q))
    by (vm_compute; reflexivity).
  assert (Ht : jtruthy (JNum 1%Q) = true) by reflexivity.
  assert (Hns : forall x, JNum 1%Q <> JStr x) by (intros x; discriminate).
  exact (checkin_non_string_id seed _ _ _ (u "T") _ E1 Hb Ht Hns).
Defined.

Lemma checkin_unknown_attendee_witness :
  run_op seed (Checkin (u "evt_123") (body_of (u "att_101")) (u "T")) = (RUnprocessable, seed).
Proof.
  assert (E1 : find_event (st_events seed) (u "evt_123") = Some (seed_events !!! 0%nat))
    by (vm_compute; reflexivity).
  assert (Hb : body_attendee_id (body_of (u "att_101")) = Some (JStr (u "att_101")))
    by (vm_compute; reflexivity).
  assert (Hne : u "att_101" <> []) by discriminate.
  assert (Hnot : u "att_101" ∉ att_id <$> arr_get seed (ev_attendees (seed_events !!! 0%nat)))
    by by_decide.
  exact (checkin_unknown_attendee seed _ _ _ (u "T") _ E1 Hb Hne Hnot).
Defined.

Lemma checkin_stats_witness :
  build_stats (run_op seed (Checkin (u "evt_123") (body_of (u "att_001")) (u "T"))).2
              (seed_events !!! 0%nat) = mkStats 3 2 1.
Proof.
  assert (Hc : run_op seed (Checkin (u "evt_123") (body_of (u "att_001")) (u "T")) =
               (RCreated (Some (JStr (u "att_001"))) (Some (u "T")),
                (run_op seed (Checkin (u "evt_123") (body_of (u "att_001")) (u "T"))).2))
    by (vm_compute; reflexivity).
  assert (Hnow : u "T" <> []) by discriminate.
  assert (Hin : In (seed_events !!! 0%nat) (st_events seed)) by (vm_compute; left; reflexivity).
  destruct (checkin_stats seed _ _ _ _ _ _ reach_seed Hnow Hc) as [_ Hs].
  rewrite (Hs _ Hin). vm_compute. reflexivity.
Defined.
